(** * Gaia voice agent: the session wiring of [main.py]

    [init_voice_agent] builds one conversation context, one seven-stage
    pipeline and one pipeline task, and registers two transport handlers,
    [on_client_connected] and [on_client_disconnected].  The handlers are
    closures over the objects built by [init_voice_agent]; in particular the
    Python list [messages] is the very object handed to the context, so an
    append on the list is an append on the context.

    The embedding keeps that sharing: Python objects live in a store, names
    hold references, and a handler is the sequence of effects its body
    performs, run against the store. *)

From stdpp Require Import gmap strings list.
From Stdlib Require Import ZArith Lia Ascii.

Open Scope string_scope.
Open Scope list_scope.

(** ** Messages *)

(** A chat message is the dict [{"role": ..., "content": ...}]. *)
Record Message := { role : string; content : string }.

#[global] Instance Message_eq_dec : EqDecision Message.
Proof. solve_decision. Defined.

(** The double quote and the line feed, by their codes. *)
Definition dquote : string := String "034"%char EmptyString.
Definition newline : string := String "010"%char EmptyString.

(** [sep.join(lines)]. *)
Fixpoint join (sep : string) (lines : list string) : string :=
  match lines with
  | [] => EmptyString
  | [l] => l
  | l :: rest => l +:+ sep +:+ join sep rest
  end.

(** The lines of the triple-quoted persona prompt (main.py, lines 56-92). *)
Definition persona_lines : list string := [
    "You are Gaia, a friendly and professional insurance assistant for Mutual of Omaha. Your personality is:";
    EmptyString;
    "PERSONALITY TRAITS:";
    "- Warm, caring, and genuinely interested in helping families";
    "- Patient and understanding, especially with seniors";
    "- Knowledgeable but never condescending";
    "- Trustworthy and reliable - you've been helping families for years";
    "- Empathetic listener who remembers personal details";
    EmptyString;
    "YOUR ROLE:";
    "1. Warmly introduce yourself as Gaia from Mutual of Omaha";
    "2. Identify their insurance needs with genuine care";
    "3. Qualify prospects for Medicare, Life, Disability, or Annuity products  ";
    "4. Capture information for specialist follow-up";
    "5. Never be pushy - focus on helping them find the right protection";
    EmptyString;
    "COMPANY CONTEXT:";
    "- Mutual of Omaha has served families since 1909 - over 115 years of trust";
    "- We specialize in Medicare Supplement, Life Insurance, and Financial products";
    "- Our mission is protecting families' financial security and peace of mind";
    EmptyString;
    "CONVERSATION STYLE:";
    "- Speak naturally and conversationally (under 20 words per response)";
    "- Use their name once you learn it";
    "- Ask ONE question at a time";
    "- Show genuine concern: " +:+ dquote +:+ "I want to make sure you're properly protected" +:+ dquote;
    "- Reference your experience: " +:+ dquote +:+ "In my years helping families..." +:+ dquote;
    EmptyString;
    "QUALIFICATION PROCESS:";
    "1. " +:+ dquote +:+ "Hi, this is Gaia from Mutual of Omaha. I'm here to help with your insurance needs." +:+ dquote;
    "2. Get their name and ask if they have a few minutes to chat";
    "3. " +:+ dquote +:+ "What brings you to Mutual of Omaha today?" +:+ dquote +:+ " (discover their interest)";
    "4. Qualify: age range, current coverage, timeline, specific concerns";
    "5. Collect contact info with care: " +:+ dquote +:+ "What's the best number to reach you?" +:+ dquote;
    "6. " +:+ dquote +:+ "I'll have one of our specialists call you. They'll take great care of you." +:+ dquote;
    EmptyString;
    "Start by introducing yourself as Gaia and ask how you can help them today."
  ].

(** The single entry of the list literal [messages = [...]]. *)
Definition persona : Message :=
  {| role := "system"; content := join newline persona_lines |}.

(** ** The time-of-day directive (main.py, lines 126-139) *)

Definition off_hours_directive : string :=
  "Explain that you're available after hours to help with their insurance needs.".

Definition business_hours_directive : string :=
  "Explain that you're here to help while our other agents are with other families.".

(** [if current_hour < 8 or current_hour > 17: ... else: ...] *)
Definition context_message (current_hour : Z) : string :=
  if ((current_hour <? 8) || (current_hour >? 17))%Z
  then off_hours_directive
  else business_hours_directive.

(** The f-string of the appended dict's content. *)
Definition greeting_content (context_message : string) : string :=
  "Start by warmly introducing yourself as Gaia from Mutual of Omaha. "
    +:+ context_message +:+ " Ask how you can help them today.".

Definition greeting_message (current_hour : Z) : Message :=
  {| role := "system"; content := greeting_content (context_message current_hour) |}.

(** ** Objects built by [init_voice_agent] *)

(** References into the store of Python objects. *)
Abbreviation ref := nat (only parsing).

(** [OpenAILLMContext(messages)] keeps the list it is given: the context and
    the name [messages] denote one list object. *)
Record OpenAILLMContext := { context_messages : ref }.

(** [llm.create_context_aggregator(context)]: a pair of processors over one
    context, reached through [.user()] and [.assistant()]. *)
Inductive Side := user_side | assistant_side.

Record ContextAggregator := { side : Side; aggregated : OpenAILLMContext }.

Record ContextAggregatorPair := { pair_context : OpenAILLMContext }.

Definition user (p : ContextAggregatorPair) : ContextAggregator :=
  {| side := user_side; aggregated := pair_context p |}.
Definition assistant (p : ContextAggregatorPair) : ContextAggregator :=
  {| side := assistant_side; aggregated := pair_context p |}.

(** The processors a pipeline is made of. *)
Inductive Stage :=
| transport_input
| stt
| aggregator (g : ContextAggregator)
| llm
| tts
| transport_output.

(** Frames the handlers hand to the task.  The context frame carries the
    context object itself. *)
Inductive Frame :=
| OpenAILLMContextFrame (context : OpenAILLMContext).

(** [aggregator.get_context_frame()]. *)
Definition get_context_frame (g : ContextAggregator) : Frame :=
  OpenAILLMContextFrame (aggregated g).

Record PipelineParams := { enable_metrics : bool; enable_usage_metrics : bool }.

(** What a handler can ask of a [PipelineTask]. *)
Inductive TaskCall :=
| queue_frames (frames : list Frame)
| cancel.

(** A [PipelineTask] object: what it was built from, and the calls it has
    received so far, oldest first.  How the task reacts to a call is the
    library's business; the object records that the call was made. *)
Record PipelineTask := {
  task_pipeline : list Stage;
  task_params : PipelineParams;
  received : list TaskCall
}.

Definition receive (c : TaskCall) (t : PipelineTask) : PipelineTask :=
  {| task_pipeline := task_pipeline t;
     task_params := task_params t;
     received := received t ++ [c] |}.

(** Lines written by [logger.info]. *)
Inductive LogRecord :=
| log_starting
| log_client_connected (client : string)
| log_context_message (context_message : string)
| log_client_disconnected (client : string).

(** The store: list objects, task objects, and the log. *)
Record World := {
  lists : gmap nat (list Message);
  tasks : gmap nat PipelineTask;
  log : list LogRecord
}.

(** The variables the two handlers close over. *)
Record Agent := {
  messages : ref;
  context : OpenAILLMContext;
  context_aggregator : ContextAggregatorPair;
  pipeline : list Stage;
  task : ref
}.

(** [context.get_messages()]: the content of the list the context holds. *)
Definition get_messages (c : OpenAILLMContext) (w : World) : list Message :=
  default [] (lists w !! context_messages c).

(** ** Effects and their execution *)

Inductive Effect :=
| logger_info (r : LogRecord)
| list_append (l : ref) (m : Message)
| task_call (t : ref) (c : TaskCall).

Definition run_effect (w : World) (e : Effect) : World :=
  match e with
  | logger_info r =>
      {| lists := lists w; tasks := tasks w; log := log w ++ [r] |}
  | list_append l m =>
      {| lists := alter (λ ms, ms ++ [m]) l (lists w); tasks := tasks w; log := log w |}
  | task_call t c =>
      {| lists := lists w; tasks := alter (receive c) t (tasks w); log := log w |}
  end.

Definition run (es : list Effect) (w : World) : World := foldl run_effect w es.

(** ** [init_voice_agent] up to the point where the runner takes over *)

Definition the_pipeline (c : ContextAggregatorPair) : list Stage :=
  [ transport_input;
    stt;
    aggregator (user c);
    llm;
    tts;
    transport_output;
    aggregator (assistant c) ].

Definition init_voice_agent : Agent * World :=
  let messages := 0 in
  let context := {| context_messages := messages |} in
  let context_aggregator := {| pair_context := context |} in
  let pipeline := the_pipeline context_aggregator in
  let task := 0 in
  ({| messages := messages;
      context := context;
      context_aggregator := context_aggregator;
      pipeline := pipeline;
      task := task |},
   {| lists := {[ messages := [persona] ]};
      tasks := {[ task := {| task_pipeline := pipeline;
                             task_params := {| enable_metrics := true;
                                               enable_usage_metrics := true |};
                             received := [] |} ]};
      log := [log_starting] |}).

Definition agent : Agent := fst init_voice_agent.
Definition world0 : World := snd init_voice_agent.

(** ** The two handlers *)

(** [current_hour] is the value [datetime.datetime.now().hour] yields when the
    handler runs. *)
Definition on_client_connected (a : Agent) (client : string) (current_hour : Z)
  : list Effect :=
  let context_message := context_message current_hour in
  [ logger_info (log_client_connected client);
    logger_info (log_context_message context_message);
    list_append (messages a)
      {| role := "system"; content := greeting_content context_message |};
    task_call (task a)
      (queue_frames [get_context_frame (user (context_aggregator a))]) ].

Definition on_client_disconnected (a : Agent) (client : string) : list Effect :=
  [ logger_info (log_client_disconnected client);
    task_call (task a) cancel ].

(** Channel events as the transport delivers them; a connection comes with
    the hour read when its handler runs. *)
Inductive ChannelEvent :=
| connected (client : string) (current_hour : Z)
| disconnected (client : string).

Definition handler (a : Agent) (ev : ChannelEvent) : list Effect :=
  match ev with
  | connected client current_hour => on_client_connected a client current_hour
  | disconnected client => on_client_disconnected a client
  end.

Definition deliver (a : Agent) (evs : list ChannelEvent) (w : World) : World :=
  foldl (λ w ev, run (handler a ev) w) w evs.

(** ** Reading the store *)

(** The calls a task object has received; none if there is no such object. *)
Definition calls (t : ref) (w : World) : list TaskCall :=
  default [] (received <$> tasks w !! t).

(** The handlers' references point at live objects, and the context, the
    aggregator pair and the name [messages] all reach one list. *)
Record wired (a : Agent) (w : World) : Prop := {
  wired_context : context_messages (context a) = messages a;
  wired_pair : pair_context (context_aggregator a) = context a;
  wired_messages : is_Some (lists w !! messages a);
  wired_task : is_Some (tasks w !! task a)
}.

(** ** Points of interest in the handlers and the pipeline *)

(** The handler body splits at the call on the task: everything before it
    leaves every task object as it was. *)
Definition before_trigger (a : Agent) (client : string) (h : Z) : list Effect :=
  take 3 (on_client_connected a client h).

(** [x] comes before [y] in [l]. *)
Definition precedes {A} (x y : A) (l : list A) : Prop :=
  ∃ i j, l !! i = Some x ∧ l !! j = Some y ∧ i < j.

(** ** The writers of the context besides the handlers *)

(** Modelled from the spec: the role an aggregator writes under. *)
Definition side_role (s : Side) : string :=
  match s with
  | user_side => "user"
  | assistant_side => "assistant"
  end.

(** Modelled from the spec: the library's aggregator classes are missing.
    An aggregator commits a completed utterance by appending one message of
    its own role to the list of the context it holds; appending is the only
    way it changes the context. *)
Definition commit (g : ContextAggregator) (text : string) : Effect :=
  list_append (context_messages (aggregated g))
    {| role := side_role (side g); content := text |}.

(** Modelled from the spec: what can happen to the context during a
    session: a channel event, handled by the handlers above, or an
    aggregator committing an utterance. *)
Inductive Operation :=
| event (ev : ChannelEvent)
| utterance (g : ContextAggregator) (text : string).

(** Modelled from the spec: one operation, then a sequence of them. *)
Definition operate (a : Agent) (w : World) (op : Operation) : World :=
  match op with
  | event ev => run (handler a ev) w
  | utterance g text => run_effect w (commit g text)
  end.

(** Modelled from the spec: a session is any interleaving of operations. *)
Definition session (a : Agent) (ops : list Operation) (w : World) : World :=
  foldl (operate a) w ops.

(** ** How a pipeline passes items on *)

(** Modelled from the spec: a raw or synthesized block of audio samples. *)
Definition AudioBlock : Type := list Z.

(** Modelled from the spec: the items that flow through the pipeline; the
    library's frame classes are missing.  The context frame is the one the
    connection handler queues. *)
Inductive Item :=
| audio_in (block : AudioBlock)
| end_of_turn
| transcript (final : bool) (text : string)
| context_frame (f : Frame)
| generated_text (segment : string)
| end_of_utterance
| audio_out (block : AudioBlock).

(** Modelled from the spec: the three provider capabilities the stages
    rest on: the transcript of the audio of one utterance, the text segments
    of the reply to a history, the audio blocks of a text. *)
Record Providers := {
  recognize : list AudioBlock → string;
  generate_reply : list Message → list string;
  synthesize : string → list AudioBlock
}.

(** Modelled from the spec: what a running pipeline holds besides the
    store: the audio the speech-to-text stage has buffered for the utterance
    in progress, the reply text the assistant aggregator has received so
    far, and the audio handed to the channel. *)
Record Running := {
  store : World;
  heard : list AudioBlock;
  said : string;
  played : list AudioBlock
}.

(** Modelled from the spec: one stage consuming one item: the state it
    leaves and the items it produces, in order.
    - speech-to-text buffers audio and produces nothing until the
      end-of-turn marker, which turns the buffer into one final transcript;
    - the user aggregator commits a final transcript as a [user] message
      and produces the context frame;
    - the language model answers a context frame with the reply to the
      messages the context holds at that moment, then the end-of-utterance
      marker;
    - text-to-speech adds the audio of a text and passes the text on, since
      the aggregator that records the reply sits after the audio output
      (main.py, lines 107-109);
    - the audio output hands audio to the channel;
    - the assistant aggregator collects the text and, at the
      end-of-utterance marker, commits it as one [assistant] message;
    - anything else passes a stage unchanged. *)
Definition process (P : Providers) (s : Stage) (i : Item) (r : Running)
  : Running * list Item :=
  match s, i with
  | stt, audio_in block =>
      ({| store := store r; heard := heard r ++ [block];
          said := said r; played := played r |}, [])
  | stt, end_of_turn =>
      match heard r with
      | [] => (r, [end_of_turn])
      | _ :: _ =>
          ({| store := store r; heard := [];
              said := said r; played := played r |},
           [transcript true (recognize P (heard r)); end_of_turn])
      end
  | aggregator g, transcript true text =>
      match side g with
      | user_side =>
          ({| store := run_effect (store r) (commit g text); heard := heard r;
              said := said r; played := played r |},
           [context_frame (get_context_frame g)])
      | assistant_side => (r, [i])
      end
  | aggregator g, generated_text segment =>
      match side g with
      | assistant_side =>
          ({| store := store r; heard := heard r;
              said := said r +:+ segment; played := played r |}, [])
      | user_side => (r, [i])
      end
  | aggregator g, end_of_utterance =>
      match side g with
      | assistant_side =>
          ({| store := run_effect (store r) (commit g (said r)); heard := heard r;
              said := EmptyString; played := played r |}, [end_of_utterance])
      | user_side => (r, [i])
      end
  | llm, context_frame (OpenAILLMContextFrame c) =>
      (r, map generated_text (generate_reply P (get_messages c (store r)))
          ++ [end_of_utterance])
  | tts, generated_text segment =>
      (r, generated_text segment :: map audio_out (synthesize P segment))
  | transport_output, audio_out block =>
      ({| store := store r; heard := heard r;
          said := said r; played := played r ++ [block] |}, [])
  | _, _ => (r, [i])
  end.

(** Modelled from the spec: items consumed one after the other by the same
    consumer, the state threaded through and the products kept in order. *)
Fixpoint through (f : Item → Running → Running * list Item)
    (items : list Item) (r : Running) : Running * list Item :=
  match items with
  | [] => (r, [])
  | i :: more =>
      let '(r1, out1) := f i r in
      let '(r2, out2) := through f more r1 in
      (r2, out1 ++ out2)
  end.

(** Modelled from the spec: the library class [Pipeline] is missing; a
    pipeline is one stage whose processing feeds what each stage produces,
    in order, into the next stage; what leaves the last stage leaves the
    pipeline. *)
Fixpoint pipeline_process (P : Providers) (stages : list Stage)
    (i : Item) (r : Running) : Running * list Item :=
  match stages with
  | [] => (r, [i])
  | s :: rest =>
      let '(r1, outs) := process P s i r in
      through (pipeline_process P rest) outs r1
  end.

(** Modelled from the spec: a sequence of items entering at the head. *)
Definition feed (P : Providers) (stages : list Stage)
    (items : list Item) (r : Running) : Running * list Item :=
  through (pipeline_process P stages) items r.

(** The last three stages of the pipeline. *)
Definition speaking : list Stage :=
  [tts; transport_output; aggregator (assistant (context_aggregator agent))].

(** Providers that can be run: the transcript is fixed, the reply quotes the
    last message of the history, each segment is synthesized as one block
    holding its length. *)
Definition echo : Providers :=
  {| recognize := λ _, "hello";
     generate_reply := λ history,
       match last history with
       | Some m => ["You said: "; content m]
       | None => []
       end;
     synthesize := λ text, [[Z.of_nat (String.length text)]] |}.

(** The text of a reply given in segments. *)
Definition joined (segments : list string) : string :=
  foldl String.append EmptyString segments.


(** ** Scenarios *)

(** [needle in text]. *)
Fixpoint occurs_in (needle text : string) : bool :=
  String.prefix needle text
  || match text with
     | EmptyString => false
     | String _ rest => occurs_in needle rest
     end.

(** The first message of a given role, if any. *)
Definition first_with_role (r : string) (ms : list Message) : option Message :=
  head (filter (λ m, role m = r) ms).

(** Scenario A of the specification: one connection, at hour 22, on the
    freshly built agent. *)
Definition scenario_A : World := deliver agent [connected "c1" 22] world0.

(** What a session consists of, as far as the handlers can change it: the
    content of the context and the calls its task has received. *)
Definition session_state (a : Agent) (w : World) : list Message * list TaskCall :=
  (get_messages (context a) w, calls (task a) w).

(** ** The session task behind the calls *)

(** What [task.queue_frames] and [task.cancel] do inside the task is library
    code outside the repository.  The definitions of this part follow the
    specification of the session task instead, and the handlers' calls are
    replayed on them. *)

Module SessionTask.

(** Modelled from the spec: the items a session task can be handed, of
    which the handlers use the context-snapshot trigger; the library's
    frame classes are missing. *)
Inductive Item :=
| context_trigger
| end_of_turn.

(** Modelled from the spec: the library's task class is missing.  A session
    task owns an injection queue of items and a cancellation flag; its
    stages share the conversation context, may hold a generation in flight
    (the text produced so far, not yet a complete utterance) and hold open
    provider handles. *)
Record t := {
  context : list Message;
  injected : list Item;
  in_flight : option string;
  handles : nat;
  cancelled : bool
}.

(** Modelled from the spec: [inject(item)] enqueues an item for entry at
    the pipeline head; a cancelled task accepts no new items. *)
Definition inject (i : Item) (s : t) : t :=
  if cancelled s then s
  else {| context := context s;
          injected := injected s ++ [i];
          in_flight := in_flight s;
          handles := handles s;
          cancelled := false |}.

(** Modelled from the spec: [cancel()] makes the stages stop accepting
    items, discards what is in flight without its side effects, keeps what
    is already committed to the context, and releases the stage
    resources. *)
Definition cancel (s : t) : t :=
  {| context := context s;
     injected := [];
     in_flight := None;
     handles := 0;
     cancelled := true |}.

(** Modelled from the spec: what the running stages do between two calls
    of the controller. *)
Inductive Activity :=
| final_transcript (text : string)
| take_trigger
| generate (segment : string)
| end_of_utterance.

(** Modelled from the spec: the user aggregator appends one [user] message
    per final transcript; the generation stage takes a trigger from the
    queue and starts an utterance, holding a provider handle; generated
    segments extend the utterance in flight; at the end-of-utterance
    marker the assistant aggregator appends one [assistant] message with
    the whole text and the handle is released.  A cancelled task does none
    of these. *)
Definition advance (act : Activity) (s : t) : t :=
  if cancelled s then s
  else match act, in_flight s, injected s with
       | final_transcript text, _, _ =>
           {| context := context s ++ [{| role := "user"; content := text |}];
              injected := injected s;
              in_flight := in_flight s;
              handles := handles s;
              cancelled := false |}
       | take_trigger, None, context_trigger :: rest =>
           {| context := context s;
              injected := rest;
              in_flight := Some EmptyString;
              handles := S (handles s);
              cancelled := false |}
       | generate segment, Some text, _ =>
           {| context := context s;
              injected := injected s;
              in_flight := Some (text +:+ segment);
              handles := handles s;
              cancelled := false |}
       | end_of_utterance, Some text, _ =>
           {| context := context s ++ [{| role := "assistant"; content := text |}];
              injected := injected s;
              in_flight := None;
              handles := pred (handles s);
              cancelled := false |}
       | _, _, _ => s
       end.

End SessionTask.

(** Modelled from the spec: a call of a handler, replayed on the session
    task: each queued context frame is injected as a context-snapshot
    trigger, and [cancel] is [cancel()]. *)
Definition perform (s : SessionTask.t) (c : TaskCall) : SessionTask.t :=
  match c with
  | queue_frames frames =>
      foldl (λ s _, SessionTask.inject SessionTask.context_trigger s) s frames
  | cancel => SessionTask.cancel s
  end.

(** Modelled from the spec: the life of a session task is a sequence of
    controller calls and stage activities, in any interleaving. *)
Inductive Step :=
| called (c : TaskCall)
| stage (act : SessionTask.Activity).

(** Modelled from the spec: one step of that life. *)
Definition step (s : SessionTask.t) (x : Step) : SessionTask.t :=
  match x with
  | called c => perform s c
  | stage act => SessionTask.advance act s
  end.

(** Modelled from the spec: a whole sequence of steps, oldest first. *)
Definition steps (xs : list Step) (s : SessionTask.t) : SessionTask.t :=
  foldl step s xs.

(** The call an effect makes on task [t], if it makes one. *)
Definition call_on (t : ref) (e : Effect) : option TaskCall :=
  match e with
  | task_call t' c => if decide (t' = t) then Some c else None
  | _ => None
  end.

(** The calls an event sequence makes on the agent's task, oldest first. *)
Definition calls_of (a : Agent) (evs : list ChannelEvent) : list TaskCall :=
  omap (call_on (task a)) (concat (map (handler a) evs)).

(** ** Event sequences *)

(** The hours of the connections of an event sequence, oldest first. *)
Definition connection_hours (evs : list ChannelEvent) : list Z :=
  omap (λ ev, match ev with
              | connected _ current_hour => Some current_hour
              | disconnected _ => None
              end) evs.

(** The call each handler makes on the task. *)
Definition event_call (a : Agent) (ev : ChannelEvent) : TaskCall :=
  match ev with
  | connected _ _ => queue_frames [OpenAILLMContextFrame (context a)]
  | disconnected _ => cancel
  end.

(** The lines each handler logs. *)
Definition event_log (ev : ChannelEvent) : list LogRecord :=
  match ev with
  | connected client current_hour =>
      [log_client_connected client; log_context_message (context_message current_hour)]
  | disconnected client => [log_client_disconnected client]
  end.

(** The directive sentences found in a log. *)
Definition logged_directives (rs : list LogRecord) : list string :=
  omap (λ r, match r with log_context_message s => Some s | _ => None end) rs.

(** * Properties *)

(** ** One effect at a time *)

Lemma run_app es1 es2 w : run (es1 ++ es2) w = run es2 (run es1 w).
Proof. apply foldl_app. Qed.

Lemma run_cons e es w : run (e :: es) w = run es (run_effect w e).
Proof. reflexivity. Qed.

Lemma run_nil w : run [] w = w.
Proof. reflexivity. Qed.

Lemma get_messages_log c w r :
  get_messages c (run_effect w (logger_info r)) = get_messages c w.
Proof. reflexivity. Qed.

Lemma get_messages_task c w t k :
  get_messages c (run_effect w (task_call t k)) = get_messages c w.
Proof. reflexivity. Qed.

Lemma get_messages_append_same c w m :
  is_Some (lists w !! context_messages c) →
  get_messages c (run_effect w (list_append (context_messages c) m))
  = get_messages c w ++ [m].
Proof.
  intros [ms Hms]. unfold get_messages. simpl.
  rewrite lookup_alter_eq, Hms. reflexivity.
Qed.

Lemma get_messages_append_other c w l m :
  l ≠ context_messages c →
  get_messages c (run_effect w (list_append l m)) = get_messages c w.
Proof.
  intros Hne. unfold get_messages. simpl.
  rewrite lookup_alter_ne by done. reflexivity.
Qed.

Lemma calls_receive t w k :
  is_Some (tasks w !! t) →
  calls t (run_effect w (task_call t k)) = calls t w ++ [k].
Proof.
  intros [o Ho]. unfold calls. simpl.
  rewrite lookup_alter_eq, Ho. reflexivity.
Qed.

Lemma calls_receive_other t t' w k :
  t' ≠ t →
  calls t (run_effect w (task_call t' k)) = calls t w.
Proof.
  intros Hne. unfold calls. simpl.
  rewrite lookup_alter_ne by done. reflexivity.
Qed.

(** No effect allocates or frees an object. *)
Lemma run_effect_dom w e :
  dom (lists (run_effect w e)) = dom (lists w)
  ∧ dom (tasks (run_effect w e)) = dom (tasks w).
Proof.
  destruct e; simpl; split; try reflexivity; apply dom_alter_L.
Qed.

Lemma run_dom es w :
  dom (lists (run es w)) = dom (lists w) ∧ dom (tasks (run es w)) = dom (tasks w).
Proof.
  revert w. induction es as [|e es IH]; intros w; [done|].
  rewrite run_cons. destruct (IH (run_effect w e)) as [-> ->].
  apply run_effect_dom.
Qed.

Lemma wired_run a w es : wired a w → wired a (run es w).
Proof.
  intros [Hc Hp Hm Ht]. destruct (run_dom es w) as [Hl Hk].
  split; [done | done | |]; apply elem_of_dom.
  - rewrite Hl. by apply elem_of_dom.
  - rewrite Hk. by apply elem_of_dom.
Qed.

Lemma wired_init : wired agent world0.
Proof.
  split; [reflexivity | reflexivity | |]; simpl.
  - rewrite lookup_singleton_eq. by eexists.
  - rewrite lookup_singleton_eq. by eexists.
Qed.

(** ** What a connection does to the store *)

Lemma connected_messages a w client h :
  wired a w →
  get_messages (context a) (run (on_client_connected a client h) w)
  = get_messages (context a) w ++ [greeting_message h].
Proof.
  intros [Hc Hp Hm Ht]. unfold on_client_connected.
  rewrite !run_cons, run_nil.
  rewrite get_messages_task. rewrite <- Hc.
  rewrite get_messages_append_same; [reflexivity|].
  simpl. by rewrite Hc.
Qed.

Lemma connected_calls a w client h :
  wired a w →
  calls (task a) (run (on_client_connected a client h) w)
  = calls (task a) w ++ [queue_frames [OpenAILLMContextFrame (context a)]].
Proof.
  intros [Hc Hp Hm Ht]. unfold on_client_connected.
  rewrite !run_cons, run_nil.
  rewrite calls_receive by done.
  unfold get_context_frame. simpl. rewrite Hp. reflexivity.
Qed.

Lemma connected_log a w client h :
  log (run (on_client_connected a client h) w)
  = log w ++ [log_client_connected client; log_context_message (context_message h)].
Proof. simpl. by rewrite <- app_assoc. Qed.

(** ** What a disconnection does to the store *)

Lemma disconnected_lists a w client :
  lists (run (on_client_disconnected a client) w) = lists w.
Proof. reflexivity. Qed.

Lemma disconnected_calls a w client :
  wired a w →
  calls (task a) (run (on_client_disconnected a client) w)
  = calls (task a) w ++ [cancel].
Proof.
  intros [Hc Hp Hm Ht]. unfold on_client_disconnected.
  rewrite !run_cons, run_nil. by rewrite calls_receive.
Qed.

(** ** The directive *)

Lemma context_message_off_hours h :
  (h < 8 ∨ h > 17)%Z → context_message h = off_hours_directive.
Proof.
  intros Hh. unfold context_message.
  destruct (Z.ltb_spec h 8) as [?|?]; [reflexivity|].
  rewrite Z.gtb_ltb. destruct (Z.ltb_spec 17 h) as [?|?]; [reflexivity | lia].
Qed.

Lemma context_message_business_hours h :
  (8 ≤ h ≤ 17)%Z → context_message h = business_hours_directive.
Proof.
  intros Hh. unfold context_message.
  destruct (Z.ltb_spec h 8) as [?|?]; [lia|].
  rewrite Z.gtb_ltb. destruct (Z.ltb_spec 17 h) as [?|?]; [lia | reflexivity].
Qed.

Lemma context_message_cases h :
  context_message h = off_hours_directive
  ∨ context_message h = business_hours_directive.
Proof. unfold context_message. destruct (_ || _); auto. Qed.

Lemma directives_differ : off_hours_directive ≠ business_hours_directive.
Proof. discriminate. Qed.

Lemma before_trigger_split a client h :
  on_client_connected a client h
  = before_trigger a client h
    ++ [task_call (task a)
          (queue_frames [get_context_frame (user (context_aggregator a))])].
Proof. reflexivity. Qed.

Lemma before_trigger_tasks a client h w :
  tasks (run (before_trigger a client h) w) = tasks w.
Proof. reflexivity. Qed.

Lemma before_trigger_messages a client h w :
  wired a w →
  get_messages (context a) (run (before_trigger a client h) w)
  = get_messages (context a) w ++ [greeting_message h].
Proof.
  intros Hw. rewrite <- (connected_messages a w client h Hw).
  rewrite before_trigger_split, run_app, run_cons, run_nil.
  by rewrite get_messages_task.
Qed.

(** Two hours give the same directive message exactly when they lie on the
    same side of the 8-to-17 range. *)
Lemma greeting_message_same_range h h' :
  greeting_message h = greeting_message h'
  ↔ ((8 ≤ h ≤ 17)%Z ↔ (8 ≤ h' ≤ 17)%Z).
Proof.
  unfold greeting_message.
  destruct (decide (8 ≤ h ≤ 17)%Z) as [Hh|Hh];
    destruct (decide (8 ≤ h' ≤ 17)%Z) as [Hh'|Hh'].
  - rewrite !context_message_business_hours by done. tauto.
  - rewrite context_message_business_hours by done.
    rewrite (context_message_off_hours h') by lia.
    split; [intros Heq; vm_compute in Heq; discriminate | tauto].
  - rewrite (context_message_off_hours h) by lia.
    rewrite (context_message_business_hours h') by done.
    split; [intros Heq; vm_compute in Heq; discriminate | tauto].
  - rewrite !context_message_off_hours by lia. tauto.
Qed.

Lemma connected_messages_same_range a w client h h' :
  wired a w →
  get_messages (context a) (run (on_client_connected a client h') w)
  = get_messages (context a) (run (on_client_connected a client h) w)
  ↔ ((8 ≤ h ≤ 17)%Z ↔ (8 ≤ h' ≤ 17)%Z).
Proof.
  intros Hw. rewrite !connected_messages by done.
  rewrite <- greeting_message_same_range. split.
  - intros Heq. apply app_inv_head in Heq. congruence.
  - by intros ->.
Qed.

(** C3: the directive appended on a connection depends on the hour alone.
    Before 8 or after 17 the appended message is the [system] message whose
    content is the greeting text built around the off-hours sentence, and it
    carries that sentence and not the business-hours one; from 8 to 17 (17
    included) it is the one built around the business-hours sentence, and
    carries that one only.  The two sentences differ, and two connections
    append the same message exactly when their hours lie on the same side.
    The message is written by the handler's own append on the list the
    context holds: it is in the context at a point of the handler where no
    task, hence no stage of the pipeline and no aggregator, has been handed
    anything. *)
Theorem directive_by_hour (a : Agent) (w : World) (client : string) (h : Z) :
  wired a w →
  ((h < 8 ∨ h > 17)%Z →
     ∃ m, get_messages (context a) (run (on_client_connected a client h) w)
          = get_messages (context a) w ++ [m]
        ∧ m = {| role := "system";
                 content := "Start by warmly introducing yourself as Gaia from Mutual of Omaha. Explain that you're available after hours to help with their insurance needs. Ask how you can help them today." |}
        ∧ m = {| role := "system"; content := greeting_content off_hours_directive |}
        ∧ occurs_in off_hours_directive (content m) = true
        ∧ occurs_in business_hours_directive (content m) = false)
  ∧ ((8 ≤ h ≤ 17)%Z →
     ∃ m, get_messages (context a) (run (on_client_connected a client h) w)
          = get_messages (context a) w ++ [m]
        ∧ m = {| role := "system";
                 content := "Start by warmly introducing yourself as Gaia from Mutual of Omaha. Explain that you're here to help while our other agents are with other families. Ask how you can help them today." |}
        ∧ m = {| role := "system"; content := greeting_content business_hours_directive |}
        ∧ occurs_in business_hours_directive (content m) = true
        ∧ occurs_in off_hours_directive (content m) = false)
  ∧ off_hours_directive ≠ business_hours_directive
  ∧ (∀ h', get_messages (context a) (run (on_client_connected a client h') w)
           = get_messages (context a) (run (on_client_connected a client h) w)
           ↔ ((8 ≤ h ≤ 17)%Z ↔ (8 ≤ h' ≤ 17)%Z))
  ∧ list_append (context_messages (context a)) (greeting_message h)
      ∈ on_client_connected a client h
  ∧ ∃ pre post,
      on_client_connected a client h = pre ++ post
      ∧ get_messages (context a) (run pre w)
        = get_messages (context a) w ++ [greeting_message h]
      ∧ tasks (run pre w) = tasks w.
Proof.
  intros Hw. split; [|split; [|split; [|split; [|split]]]].
  - intros Hh. exists (greeting_message h).
    split; [by apply connected_messages|].
    unfold greeting_message. rewrite context_message_off_hours by done.
    repeat split; vm_compute; reflexivity.
  - intros Hh. exists (greeting_message h).
    split; [by apply connected_messages|].
    unfold greeting_message. rewrite context_message_business_hours by done.
    repeat split; vm_compute; reflexivity.
  - apply directives_differ.
  - intros h'. by apply connected_messages_same_range.
  - rewrite (wired_context a w Hw). unfold on_client_connected, greeting_message.
    do 2 apply list_elem_of_further. apply list_elem_of_here.
  - eexists _, _. split; [apply before_trigger_split|]. split.
    + by apply before_trigger_messages.
    + apply before_trigger_tasks.
Qed.

(** Hours 17 and 18 on the freshly built agent: business hours, then off
    hours. *)
Lemma directive_by_hour_at_17 :
  wired agent world0
  ∧ get_messages (context agent) (run (on_client_connected agent "c1" 17) world0)
    = [persona;
       {| role := "system";
          content := "Start by warmly introducing yourself as Gaia from Mutual of Omaha. Explain that you're here to help while our other agents are with other families. Ask how you can help them today." |}]
  ∧ get_messages (context agent) (run (on_client_connected agent "c1" 18) world0)
    = [persona;
       {| role := "system";
          content := "Start by warmly introducing yourself as Gaia from Mutual of Omaha. Explain that you're available after hours to help with their insurance needs. Ask how you can help them today." |}].
Proof.
  split; [apply wired_init|]. split.
  - destruct (directive_by_hour agent world0 "c1" 17 wired_init) as (_ & Hb & _).
    destruct Hb as (m & Hm & -> & _); [lia|]. rewrite Hm. reflexivity.
  - destruct (directive_by_hour agent world0 "c1" 18 wired_init) as (Ho & _).
    destruct Ho as (m & Hm & -> & _); [lia|]. rewrite Hm. reflexivity.
Defined.

(** Segments generated one after the other extend the utterance in flight
    of a session task that is not cancelled. *)
Lemma generate_segments segments s text :
  SessionTask.cancelled s = false →
  SessionTask.in_flight s = Some text →
  steps (map (λ segment, stage (SessionTask.generate segment)) segments) s
  = {| SessionTask.context := SessionTask.context s;
       SessionTask.injected := SessionTask.injected s;
       SessionTask.in_flight := Some (foldl String.append text segments);
       SessionTask.handles := SessionTask.handles s;
       SessionTask.cancelled := false |}.
Proof.
  revert s text. induction segments as [|segment segments IH]; intros s text Hc Hf.
  - simpl. destruct s; simpl in *. by subst.
  - unfold steps in *. simpl.
    unfold SessionTask.advance at 1. rewrite Hc, Hf.
    rewrite (IH _ (text +:+ segment)) by reflexivity. reflexivity.
Qed.

Lemma steps_app xs ys s : steps (xs ++ ys) s = steps ys (steps xs s).
Proof. apply foldl_app. Qed.

(** The trigger queued on a session task that is running and idle starts a
    generation, which ends in one [assistant] message. *)
Lemma trigger_starts_generation f segments s :
  SessionTask.cancelled s = false →
  SessionTask.in_flight s = None →
  SessionTask.injected s = [] →
  SessionTask.in_flight
    (steps [called (queue_frames [f]); stage SessionTask.take_trigger] s)
  = Some EmptyString
  ∧ SessionTask.context
      (steps (called (queue_frames [f])
              :: stage SessionTask.take_trigger
              :: map (λ segment, stage (SessionTask.generate segment)) segments
              ++ [stage SessionTask.end_of_utterance]) s)
    = SessionTask.context s
      ++ [{| role := "assistant"; content := joined segments |}].
Proof.
  intros Hc Hf Hq.
  assert (steps [called (queue_frames [f]); stage SessionTask.take_trigger] s
          = {| SessionTask.context := SessionTask.context s;
               SessionTask.injected := [];
               SessionTask.in_flight := Some EmptyString;
               SessionTask.handles := S (SessionTask.handles s);
               SessionTask.cancelled := false |}) as Hstart.
  { unfold steps. simpl. unfold SessionTask.inject. rewrite Hc.
    unfold SessionTask.advance. simpl. by rewrite Hf, Hq. }
  split; [by rewrite Hstart|].
  change (called (queue_frames [f]) :: stage SessionTask.take_trigger :: ?rest)
    with ([called (queue_frames [f]); stage SessionTask.take_trigger] ++ rest).
  rewrite steps_app, Hstart, steps_app.
  rewrite (generate_segments segments _ EmptyString) by reflexivity.
  reflexivity.
Qed.

(** C5: a connection makes one call on the task, [queue_frames] with a list
    of exactly one frame, the context frame of the shared context; the call
    is the last thing the handler does, after the directive is in the
    context, and no other task object is touched.  On the session task of
    the specification, as long as it is running (not cancelled), the call
    puts exactly one context-snapshot trigger into the injection queue, from
    which items enter at the pipeline head, and changes nothing else; and if
    the task is idle the trigger
    starts a generation at once, which ends in one [assistant] message,
    with no transcript and no [user] message needed. *)
Theorem connect_injects_one_trigger (a : Agent) (w : World) (client : string) (h : Z) :
  wired a w →
  ∃ pre trigger,
    on_client_connected a client h
    = pre ++ [task_call (task a) (queue_frames [trigger])]
    ∧ trigger = OpenAILLMContextFrame (context a)
    ∧ get_messages (context a) (run pre w)
      = get_messages (context a) w ++ [greeting_message h]
    ∧ tasks (run pre w) = tasks w
    ∧ calls (task a) (run (on_client_connected a client h) w)
      = calls (task a) w ++ [queue_frames [trigger]]
    ∧ get_messages (context a) (run (on_client_connected a client h) w)
      = get_messages (context a) w ++ [greeting_message h]
    ∧ (∀ t, t ≠ task a →
        calls t (run (on_client_connected a client h) w) = calls t w)
    ∧ drop (length (calls (task a) w))
        (calls (task a) (run (on_client_connected a client h) w))
      = [queue_frames [trigger]]
    ∧ (∀ s, SessionTask.cancelled s = false →
         foldl perform s [queue_frames [trigger]]
         = {| SessionTask.context := SessionTask.context s;
              SessionTask.injected :=
                SessionTask.injected s ++ [SessionTask.context_trigger];
              SessionTask.in_flight := SessionTask.in_flight s;
              SessionTask.handles := SessionTask.handles s;
              SessionTask.cancelled := false |})
    ∧ (∀ s segments,
         SessionTask.cancelled s = false →
         SessionTask.in_flight s = None →
         SessionTask.injected s = [] →
         SessionTask.in_flight
           (steps [called (queue_frames [trigger]); stage SessionTask.take_trigger] s)
         = Some EmptyString
         ∧ SessionTask.context
             (steps (called (queue_frames [trigger])
                     :: stage SessionTask.take_trigger
                     :: map (λ segment, stage (SessionTask.generate segment)) segments
                     ++ [stage SessionTask.end_of_utterance]) s)
           = SessionTask.context s
             ++ [{| role := "assistant"; content := joined segments |}]).
Proof.
  intros Hw. exists (before_trigger a client h), (OpenAILLMContextFrame (context a)).
  split.
  { rewrite before_trigger_split. unfold get_context_frame. simpl.
    by rewrite (wired_pair a w Hw). }
  split; [reflexivity|].
  split; [by apply before_trigger_messages|].
  split; [apply before_trigger_tasks|].
  split; [by apply connected_calls|].
  split; [by apply connected_messages|].
  split.
  { intros t Ht. rewrite before_trigger_split, run_app, run_cons, run_nil.
    rewrite calls_receive_other by done.
    unfold calls. by rewrite before_trigger_tasks. }
  split; [by rewrite connected_calls, drop_app_length by done|].
  split.
  - intros s Hc. simpl. unfold SessionTask.inject. by rewrite Hc.
  - intros s segments Hc Hf Hq. by apply trigger_starts_generation.
Qed.

Lemma connect_injects_one_trigger_fresh :
  wired agent world0
  ∧ calls (task agent) (run (on_client_connected agent "c1" 10) world0)
    = [queue_frames [OpenAILLMContextFrame (context agent)]]
  ∧ SessionTask.context
      (steps [called (queue_frames [OpenAILLMContextFrame (context agent)]);
              stage SessionTask.take_trigger;
              stage (SessionTask.generate "Hi, this is Gaia");
              stage (SessionTask.generate " from Mutual of Omaha.");
              stage SessionTask.end_of_utterance]
         {| SessionTask.context := [persona; greeting_message 10];
            SessionTask.injected := [];
            SessionTask.in_flight := None;
            SessionTask.handles := 0;
            SessionTask.cancelled := false |})
    = [persona; greeting_message 10;
       {| role := "assistant";
          content := "Hi, this is Gaia from Mutual of Omaha." |}].
Proof.
  split; [apply wired_init|].
  destruct (connect_injects_one_trigger agent world0 "c1" 10 wired_init)
    as (pre & trigger & _ & -> & _ & _ & Hcalls & _ & _ & _ & _ & Hgen).
  split; [rewrite Hcalls; reflexivity|].
  destruct (Hgen {| SessionTask.context := [persona; greeting_message 10];
                    SessionTask.injected := [];
                    SessionTask.in_flight := None;
                    SessionTask.handles := 0;
                    SessionTask.cancelled := false |}
                 ["Hi, this is Gaia"; " from Mutual of Omaha."]
                 eq_refl eq_refl eq_refl) as [_ Hctx].
  exact Hctx.
Defined.

(** C6: a disconnection makes one call on the task, [cancel], and does
    nothing else to the session: every list object, the context among them,
    and every other task object stay as they were; the task keeps its
    pipeline and parameters; one line is logged. *)
Theorem disconnect_only_cancels (a : Agent) (w : World) (client : string) :
  wired a w →
  calls (task a) (run (on_client_disconnected a client) w)
  = calls (task a) w ++ [cancel]
  ∧ lists (run (on_client_disconnected a client) w) = lists w
  ∧ tasks (run (on_client_disconnected a client) w)
    = alter (receive cancel) (task a) (tasks w)
  ∧ (∀ t, t ≠ task a →
       tasks (run (on_client_disconnected a client) w) !! t = tasks w !! t)
  ∧ log (run (on_client_disconnected a client) w)
    = log w ++ [log_client_disconnected client].
Proof.
  intros Hw. split; [by apply disconnected_calls|].
  split; [reflexivity|]. split; [reflexivity|]. split; [|reflexivity].
  intros t Ht. simpl. by rewrite lookup_alter_ne.
Qed.

Lemma disconnect_only_cancels_fresh :
  wired agent world0
  ∧ calls (task agent) (run (on_client_disconnected agent "c1") world0) = [cancel]
  ∧ get_messages (context agent) (run (on_client_disconnected agent "c1") world0)
    = [persona].
Proof.
  split; [apply wired_init|].
  destruct (disconnect_only_cancels agent world0 "c1" wired_init)
    as (Hcalls & Hlists & _).
  split; [rewrite Hcalls; reflexivity|].
  unfold get_messages. rewrite Hlists. reflexivity.
Defined.

(** C10: whatever the hour, the message a connection appends has role
    [system] and its content is the fixed opening, then one sentence, then
    the fixed closing.  The sentence alone depends on the hour: it is the
    off-hours sentence before 8 and after 17 and the business-hours sentence
    from 8 to 17, the two are different, and two connections append the same
    message exactly when their hours lie on the same side. *)
Theorem greeting_template (a : Agent) (w : World) (client : string) (h : Z) :
  wired a w →
  ∃ sentence,
    sentence = context_message h
    ∧ (sentence = off_hours_directive ∨ sentence = business_hours_directive)
    ∧ ((h < 8 ∨ h > 17)%Z →
         sentence
         = "Explain that you're available after hours to help with their insurance needs.")
    ∧ ((8 ≤ h ≤ 17)%Z →
         sentence
         = "Explain that you're here to help while our other agents are with other families.")
    ∧ get_messages (context a) (run (on_client_connected a client h) w)
      = get_messages (context a) w
        ++ [{| role := "system";
               content :=
                 "Start by warmly introducing yourself as Gaia from Mutual of Omaha. "
                   +:+ sentence +:+ " Ask how you can help them today." |}]
    ∧ (∀ h', get_messages (context a) (run (on_client_connected a client h') w)
             = get_messages (context a) (run (on_client_connected a client h) w)
             ↔ ((8 ≤ h ≤ 17)%Z ↔ (8 ≤ h' ≤ 17)%Z)).
Proof.
  intros Hw. exists (context_message h).
  split; [reflexivity|]. split; [apply context_message_cases|].
  split; [intros Hh; by rewrite context_message_off_hours|].
  split; [intros Hh; by rewrite context_message_business_hours|].
  split; [by rewrite connected_messages|].
  intros h'. by apply connected_messages_same_range.
Qed.

Lemma greeting_template_at_22 :
  wired agent world0
  ∧ get_messages (context agent) (run (on_client_connected agent "c1" 22) world0)
    = [persona;
       {| role := "system";
          content := "Start by warmly introducing yourself as Gaia from Mutual of Omaha. Explain that you're available after hours to help with their insurance needs. Ask how you can help them today." |}]
  ∧ get_messages (context agent) (run (on_client_connected agent "c1" 10) world0)
    = [persona;
       {| role := "system";
          content := "Start by warmly introducing yourself as Gaia from Mutual of Omaha. Explain that you're here to help while our other agents are with other families. Ask how you can help them today." |}].
Proof.
  split; [apply wired_init|]. split.
  - destruct (greeting_template agent world0 "c1" 22 wired_init)
      as (sentence & _ & _ & Hoff & _ & Hm & _).
    rewrite Hm, Hoff by lia. reflexivity.
  - destruct (greeting_template agent world0 "c1" 10 wired_init)
      as (sentence & _ & _ & _ & Hbusiness & Hm & _).
    rewrite Hm, Hbusiness by lia. reflexivity.
Defined.

(** ** The context only grows *)

Lemma run_effect_prefix c w e :
  get_messages c w `prefix_of` get_messages c (run_effect w e).
Proof.
  destruct e as [r | l m | t k]; try reflexivity.
  unfold get_messages. simpl.
  destruct (decide (l = context_messages c)) as [->|Hne].
  - rewrite lookup_alter_eq. destruct (lists w !! context_messages c); simpl.
    + by apply prefix_app_r.
    + reflexivity.
  - by rewrite lookup_alter_ne.
Qed.

Lemma run_prefix c es w :
  get_messages c w `prefix_of` get_messages c (run es w).
Proof.
  revert w. induction es as [|e es IH]; intros w; [reflexivity|].
  rewrite run_cons. etrans; [apply run_effect_prefix | apply IH].
Qed.

Lemma deliver_cons a ev evs w :
  deliver a (ev :: evs) w = deliver a evs (run (handler a ev) w).
Proof. reflexivity. Qed.

Lemma deliver_prefix a c evs w :
  get_messages c w `prefix_of` get_messages c (deliver a evs w).
Proof.
  revert w. induction evs as [|ev evs IH]; intros w; [reflexivity|].
  rewrite deliver_cons. etrans; [apply run_prefix | apply IH].
Qed.

Lemma deliver_dom a evs w :
  dom (lists (deliver a evs w)) = dom (lists w)
  ∧ dom (tasks (deliver a evs w)) = dom (tasks w).
Proof.
  revert w. induction evs as [|ev evs IH]; intros w; [done|].
  rewrite deliver_cons. destruct (IH (run (handler a ev) w)) as [-> ->].
  apply run_dom.
Qed.

Lemma wired_deliver a evs w : wired a w → wired a (deliver a evs w).
Proof.
  revert w. induction evs as [|ev evs IH]; intros w Hw; [done|].
  rewrite deliver_cons. by apply IH, wired_run.
Qed.

Lemma session_cons a op ops w :
  session a (op :: ops) w = session a ops (operate a w op).
Proof. reflexivity. Qed.

Lemma operate_prefix a c w op :
  get_messages c w `prefix_of` get_messages c (operate a w op).
Proof.
  destruct op as [ev | g text]; [apply run_prefix | apply run_effect_prefix].
Qed.

Lemma session_prefix a c ops w :
  get_messages c w `prefix_of` get_messages c (session a ops w).
Proof.
  revert w. induction ops as [|op ops IH]; intros w; [reflexivity|].
  rewrite session_cons. etrans; [apply operate_prefix | apply IH].
Qed.

(** C7: the context is seeded with the persona message alone, of role
    [system].  Nothing that writes to the context during a session removes
    or moves a message: not an effect of a handler, not a sequence of
    channel events, not an aggregator committing a [user] or an [assistant]
    utterance, in any interleaving: the earlier content is a prefix of the
    later one.  So the persona stays the first entry of every later
    snapshot, also of one that holds directives, [user] and [assistant]
    messages. *)
Theorem context_append_only :
  get_messages (context agent) world0 = [persona]
  ∧ Forall (λ m, role m = "system") (get_messages (context agent) world0)
  ∧ (∀ c w e, get_messages c w `prefix_of` get_messages c (run_effect w e))
  ∧ (∀ a c w evs, get_messages c w `prefix_of` get_messages c (deliver a evs w))
  ∧ (∀ evs, [persona] `prefix_of` get_messages (context agent) (deliver agent evs world0))
  ∧ (∀ c w g text,
       get_messages c w `prefix_of` get_messages c (run_effect w (commit g text)))
  ∧ (∀ a c w ops, get_messages c w `prefix_of` get_messages c (session a ops w))
  ∧ (∀ ops, [persona] `prefix_of` get_messages (context agent) (session agent ops world0))
  ∧ get_messages (context agent)
      (session agent
         [event (connected "c1" 10);
          utterance (assistant (context_aggregator agent)) "Hi, this is Gaia.";
          utterance (user (context_aggregator agent)) "hello";
          event (disconnected "c1")]
         world0)
    = [persona;
       greeting_message 10;
       {| role := "assistant"; content := "Hi, this is Gaia." |};
       {| role := "user"; content := "hello" |}].
Proof.
  split; [reflexivity|]. split; [by repeat constructor|].
  split; [apply run_effect_prefix|]. split; [intros; apply deliver_prefix|].
  split; [intros evs; apply (deliver_prefix agent (context agent) evs world0)|].
  split; [intros; apply run_effect_prefix|].
  split; [intros; apply session_prefix|].
  split; [intros ops; apply (session_prefix agent (context agent) ops world0)|].
  reflexivity.
Qed.

(** ** The pipeline *)

Ltac at_positions i j :=
  exists i, j; split; [reflexivity | split; [reflexivity | lia]].

Lemma run_effect_task_pipeline t w e :
  task_pipeline <$> tasks (run_effect w e) !! t = task_pipeline <$> tasks w !! t.
Proof.
  destruct e as [r | l m | t' k]; try reflexivity. simpl.
  destruct (decide (t' = t)) as [->|Hne].
  - rewrite lookup_alter_eq. by destruct (tasks w !! t).
  - by rewrite lookup_alter_ne.
Qed.

Lemma run_task_pipeline t es w :
  task_pipeline <$> tasks (run es w) !! t = task_pipeline <$> tasks w !! t.
Proof.
  revert w. induction es as [|e es IH]; intros w; [reflexivity|].
  by rewrite run_cons, IH, run_effect_task_pipeline.
Qed.

Lemma deliver_task_pipeline a t evs w :
  task_pipeline <$> tasks (deliver a evs w) !! t = task_pipeline <$> tasks w !! t.
Proof.
  revert w. induction evs as [|ev evs IH]; intros w; [reflexivity|].
  by rewrite deliver_cons, IH, run_task_pipeline.
Qed.

(** *** Items on their way through the stages *)

Lemma through_app f xs ys r :
  through f (xs ++ ys) r
  = (fst (through f ys (fst (through f xs r))),
     snd (through f xs r) ++ snd (through f ys (fst (through f xs r)))).
Proof.
  revert r. induction xs as [|x xs IH]; intros r; simpl.
  - by destruct (through f ys r).
  - destruct (f x r) as [r1 out1]. rewrite IH.
    destruct (through f xs r1) as [r2 out2]. simpl.
    destruct (through f ys r2) as [r3 out3]. simpl. by rewrite app_assoc.
Qed.

Lemma through_one f i r :
  through f [i] r = f i r.
Proof. simpl. destruct (f i r) as [r1 out1]. by rewrite app_nil_r. Qed.

(** An item a stage passes on unchanged goes on to the next stage. *)
Lemma pipeline_process_pass P s rest i r :
  process P s i r = (r, [i]) →
  pipeline_process P (s :: rest) i r = pipeline_process P rest i r.
Proof. intros Hpass. simpl. rewrite Hpass. apply through_one. Qed.

(** Audio entering the pipeline stops at the speech-to-text stage. *)
Lemma feed_audio_in P blocks r :
  feed P (pipeline agent) (map audio_in blocks) r
  = ({| store := store r; heard := heard r ++ blocks;
        said := said r; played := played r |}, []).
Proof.
  unfold feed. revert r. induction blocks as [|b blocks IH]; intros r.
  - simpl. rewrite app_nil_r. by destruct r.
  - change (map audio_in (b :: blocks)) with ([audio_in b] ++ map audio_in blocks).
    rewrite through_app, through_one.
    change (pipeline_process P (pipeline agent) (audio_in b) r)
      with ({| store := store r; heard := heard r ++ [b];
               said := said r; played := played r |}, @nil Item).
    cbn [fst snd]. rewrite IH. cbn [fst snd store heard said played app].
    by rewrite <- app_assoc.
Qed.

(** Synthesized audio stops at the audio output. *)
Lemma through_audio_out P g blocks r :
  through (pipeline_process P [transport_output; aggregator g]) (map audio_out blocks) r
  = ({| store := store r; heard := heard r;
        said := said r; played := played r ++ blocks |}, []).
Proof.
  revert r. induction blocks as [|b blocks IH]; intros r.
  - simpl. rewrite app_nil_r. by destruct r.
  - change (map audio_out (b :: blocks)) with ([audio_out b] ++ map audio_out blocks).
    rewrite through_app, through_one.
    change (pipeline_process P [transport_output; aggregator g] (audio_out b) r)
      with ({| store := store r; heard := heard r;
               said := said r; played := played r ++ [b] |}, @nil Item).
    cbn [fst snd]. rewrite IH. cbn [fst snd store heard said played app].
    by rewrite <- app_assoc.
Qed.

Lemma speaking_segment P segment r :
  pipeline_process P speaking (generated_text segment) r
  = ({| store := store r; heard := heard r;
        said := said r +:+ segment;
        played := played r ++ synthesize P segment |}, []).
Proof.
  unfold speaking.
  change (pipeline_process P _ (generated_text segment) r)
    with (through
            (pipeline_process P
               [transport_output; aggregator (assistant (context_aggregator agent))])
            ([generated_text segment] ++ map audio_out (synthesize P segment)) r).
  rewrite through_app, through_one.
  change (pipeline_process P
            [transport_output; aggregator (assistant (context_aggregator agent))]
            (generated_text segment) r)
    with ({| store := store r; heard := heard r;
             said := said r +:+ segment; played := played r |}, @nil Item).
  cbn [fst snd]. rewrite through_audio_out. reflexivity.
Qed.

Lemma speaking_segments P segments r :
  through (pipeline_process P speaking) (map generated_text segments) r
  = ({| store := store r; heard := heard r;
        said := foldl String.append (said r) segments;
        played := played r ++ concat (map (synthesize P) segments) |}, []).
Proof.
  revert r. induction segments as [|segment segments IH]; intros r.
  - simpl. rewrite app_nil_r. by destruct r.
  - change (map generated_text (segment :: segments))
      with ([generated_text segment] ++ map generated_text segments).
    rewrite through_app, through_one, speaking_segment. cbn [fst snd].
    rewrite IH. cbn [fst snd store heard said played app concat map foldl].
    by rewrite <- app_assoc.
Qed.

Lemma speaking_end_of_utterance P r :
  pipeline_process P speaking end_of_utterance r
  = ({| store := run_effect (store r)
                   (commit (assistant (context_aggregator agent)) (said r));
        heard := heard r; said := EmptyString; played := played r |},
     [end_of_utterance]).
Proof. reflexivity. Qed.

(** The language model answers a context frame; the reply is spoken and
    committed. *)
Lemma generation P c r :
  pipeline_process P (llm :: speaking) (context_frame (OpenAILLMContextFrame c)) r
  = ({| store := run_effect (store r)
                   (commit (assistant (context_aggregator agent))
                      (foldl String.append (said r)
                         (generate_reply P (get_messages c (store r)))));
        heard := heard r;
        said := EmptyString;
        played := played r
                  ++ concat (map (synthesize P)
                               (generate_reply P (get_messages c (store r)))) |},
     [end_of_utterance]).
Proof.
  change (pipeline_process P _ (context_frame (OpenAILLMContextFrame c)) r)
    with (through (pipeline_process P speaking)
            (map generated_text (generate_reply P (get_messages c (store r)))
             ++ [end_of_utterance]) r).
  rewrite through_app, speaking_segments. cbn [fst snd].
  rewrite through_one, speaking_end_of_utterance. reflexivity.
Qed.

(** A context frame entering at the head passes the first three stages. *)
Lemma feed_context_frame P c r :
  pipeline_process P (pipeline agent) (context_frame (OpenAILLMContextFrame c)) r
  = pipeline_process P (llm :: speaking) (context_frame (OpenAILLMContextFrame c)) r.
Proof.
  change (pipeline agent)
    with ([transport_input; stt; aggregator (user (context_aggregator agent))]
          ++ llm :: speaking).
  cbn [app]. by rewrite !pipeline_process_pass by reflexivity.
Qed.

(** One utterance: its audio, then the end-of-turn marker. *)
Lemma feed_utterance P blocks r :
  blocks ≠ [] →
  heard r = [] →
  fst (feed P (pipeline agent) (map audio_in blocks ++ [end_of_turn]) r)
  = (let w1 := run_effect (store r)
                 (commit (user (context_aggregator agent)) (recognize P blocks)) in
     let segments := generate_reply P (get_messages (context agent) w1) in
     {| store := run_effect w1
                   (commit (assistant (context_aggregator agent))
                      (foldl String.append (said r) segments));
        heard := [];
        said := EmptyString;
        played := played r ++ concat (map (synthesize P) segments) |}).
Proof.
  intros Hblocks Hheard. unfold feed.
  rewrite through_app. fold (feed P (pipeline agent) (map audio_in blocks) r).
  rewrite feed_audio_in. cbn [fst snd]. rewrite through_one, Hheard. cbn [app].
  destruct blocks as [|b blocks]; [done|].
  change (pipeline agent)
    with ([transport_input; stt; aggregator (user (context_aggregator agent))]
          ++ llm :: speaking).
  cbn [app]. rewrite pipeline_process_pass by reflexivity.
  set (rest := llm :: speaking).
  set (r1 := {| store := store r; heard := b :: blocks; said := said r; played := played r |}).
  change (pipeline_process P (stt :: aggregator (user (context_aggregator agent)) :: rest)
            end_of_turn r1)
    with (through (pipeline_process P (aggregator (user (context_aggregator agent)) :: rest))
            ([transcript true (recognize P (b :: blocks))] ++ [end_of_turn])
            {| store := store r; heard := []; said := said r; played := played r |}).
  rewrite through_app, !through_one.
  set (r2 := {| store := store r; heard := []; said := said r; played := played r |}).
  change (pipeline_process P (aggregator (user (context_aggregator agent)) :: rest)
            (transcript true (recognize P (b :: blocks))) r2)
    with (through (pipeline_process P rest)
            [context_frame (OpenAILLMContextFrame (context agent))]
            {| store := run_effect (store r)
                          (commit (user (context_aggregator agent))
                             (recognize P (b :: blocks)));
               heard := []; said := said r; played := played r |}).
  rewrite through_one. subst rest. rewrite generation. cbn [fst snd].
  rewrite !pipeline_process_pass by reflexivity. reflexivity.
Qed.

(** What the pipeline leaves in the context after one utterance. *)
Lemma utterance_messages P w blocks played0 :
  wired agent w →
  blocks ≠ [] →
  get_messages (context agent)
    (store (fst (feed P (pipeline agent) (map audio_in blocks ++ [end_of_turn])
                   {| store := w; heard := []; said := EmptyString;
                      played := played0 |})))
  = get_messages (context agent) w
    ++ [{| role := "user"; content := recognize P blocks |};
        {| role := "assistant";
           content :=
             joined (generate_reply P
                       (get_messages (context agent) w
                        ++ [{| role := "user"; content := recognize P blocks |}])) |}].
Proof.
  intros Hw Hblocks. rewrite feed_utterance by done. cbn [store said].
  pose proof (wired_messages agent w Hw) as Hlist.
  change (commit (assistant (context_aggregator agent)) ?text)
    with (list_append (context_messages (context agent))
            {| role := "assistant"; content := text |}).
  change (commit (user (context_aggregator agent)) ?text)
    with (list_append (context_messages (context agent))
            {| role := "user"; content := text |}).
  rewrite get_messages_append_same.
  - rewrite get_messages_append_same by done. by rewrite <- app_assoc.
  - apply elem_of_dom. destruct (run_effect_dom w
      (list_append (context_messages (context agent))
         {| role := "user"; content := recognize P blocks |})) as [-> _].
    by apply elem_of_dom.
Qed.

(** C4: the pipeline is the seven stages audio input, speech-to-text, user
    aggregator, language model, text-to-speech, audio output, assistant
    aggregator, in that order; both aggregators hold the one context; the
    task is built from this pipeline and keeps it through any channel
    events.  Each stage consumes, in order, what the stage before it
    produced.  With the stages behaving as the specification describes them,
    whatever the providers, the audio of one utterance followed by the
    end-of-turn marker leaves in the context the transcript as a [user]
    message and then the reply as an [assistant] message, where the reply is
    the one generated for the history that already ends with that [user]
    message; and the audio synthesized from the reply, segment by segment,
    is what has been handed to the channel. *)
Theorem pipeline_order :
  pipeline agent
  = [ transport_input; stt; aggregator (user (context_aggregator agent)); llm;
      tts; transport_output; aggregator (assistant (context_aggregator agent)) ]
  ∧ aggregated (user (context_aggregator agent)) = context agent
  ∧ aggregated (assistant (context_aggregator agent)) = context agent
  ∧ (∀ evs, task_pipeline <$> tasks (deliver agent evs world0) !! task agent
            = Some (pipeline agent))
  ∧ precedes transport_input stt (pipeline agent)
  ∧ precedes stt (aggregator (user (context_aggregator agent))) (pipeline agent)
  ∧ precedes (aggregator (user (context_aggregator agent))) llm (pipeline agent)
  ∧ precedes llm tts (pipeline agent)
  ∧ precedes tts transport_output (pipeline agent)
  ∧ precedes transport_output (aggregator (assistant (context_aggregator agent)))
      (pipeline agent)
  ∧ (∀ P s rest i r,
       pipeline_process P (s :: rest) i r
       = (fst (through (pipeline_process P rest)
                 (snd (process P s i r)) (fst (process P s i r))),
          snd (through (pipeline_process P rest)
                 (snd (process P s i r)) (fst (process P s i r)))))
  ∧ ∀ (P : Providers) (w : World) (blocks played0 : list AudioBlock),
      wired agent w →
      blocks ≠ [] →
      get_messages (context agent)
        (store (fst (feed P (pipeline agent) (map audio_in blocks ++ [end_of_turn])
                       {| store := w; heard := []; said := EmptyString;
                          played := played0 |})))
      = get_messages (context agent) w
        ++ [{| role := "user"; content := recognize P blocks |};
            {| role := "assistant";
               content :=
                 joined (generate_reply P
                           (get_messages (context agent) w
                            ++ [{| role := "user";
                                   content := recognize P blocks |}])) |}]
      ∧ played (fst (feed P (pipeline agent) (map audio_in blocks ++ [end_of_turn])
                       {| store := w; heard := []; said := EmptyString;
                          played := played0 |}))
        = played0
          ++ concat (map (synthesize P)
                       (generate_reply P
                          (get_messages (context agent) w
                           ++ [{| role := "user";
                                  content := recognize P blocks |}])))
      ∧ heard (fst (feed P (pipeline agent) (map audio_in blocks ++ [end_of_turn])
                      {| store := w; heard := []; said := EmptyString;
                         played := played0 |})) = []
      ∧ said (fst (feed P (pipeline agent) (map audio_in blocks ++ [end_of_turn])
                     {| store := w; heard := []; said := EmptyString;
                        played := played0 |})) = EmptyString.
Proof.
  split; [reflexivity|]. split; [reflexivity|]. split; [reflexivity|].
  split; [intros evs; by rewrite deliver_task_pipeline|].
  split; [at_positions 0 1|]. split; [at_positions 1 2|].
  split; [at_positions 2 3|]. split; [at_positions 3 4|].
  split; [at_positions 4 5|]. split; [at_positions 5 6|].
  split.
  { intros P s rest i r. simpl. destruct (process P s i r) as [r1 outs].
    cbn [fst snd]. by destruct (through (pipeline_process P rest) outs r1). }
  intros P w blocks played0 Hw Hblocks.
  split; [by apply utterance_messages|].
  rewrite feed_utterance by done. cbn [store heard said played].
  pose proof (wired_messages agent w Hw) as Hlist.
  change (commit (user (context_aggregator agent)) ?text)
    with (list_append (context_messages (context agent))
            {| role := "user"; content := text |}).
  by rewrite get_messages_append_same.
Qed.

Lemma pipeline_order_echo :
  wired agent world0
  ∧ get_messages (context agent)
      (store (fst (feed echo (pipeline agent)
                     (map audio_in [[1; 2]; [3]]%Z ++ [end_of_turn])
                     {| store := world0; heard := []; said := EmptyString;
                        played := [] |})))
    = [persona;
       {| role := "user"; content := "hello" |};
       {| role := "assistant"; content := "You said: hello" |}]
  ∧ played (fst (feed echo (pipeline agent)
                   (map audio_in [[1; 2]; [3]]%Z ++ [end_of_turn])
                   {| store := world0; heard := []; said := EmptyString;
                      played := [] |}))
    = [[10]; [5]]%Z.
Proof.
  split; [apply wired_init|].
  destruct pipeline_order as (_ & _ & _ & _ & _ & _ & _ & _ & _ & _ & _ & Hflow).
  destruct (Hflow echo world0 [[1; 2]; [3]]%Z [] wired_init) as (Hm & Hp & _).
  { discriminate. }
  split; [rewrite Hm; reflexivity | rewrite Hp; reflexivity].
Defined.

(** The order matters: with the language model placed before the user
    aggregator the same utterance is committed but never answered. *)
Example language_model_before_user_aggregator :
  let swapped :=
    [ transport_input; stt; llm; aggregator (user (context_aggregator agent));
      tts; transport_output; aggregator (assistant (context_aggregator agent)) ] in
  let r := fst (feed echo swapped (map audio_in [[1; 2]; [3]]%Z ++ [end_of_turn])
                  {| store := world0; heard := []; said := EmptyString;
                     played := [] |}) in
  get_messages (context agent) (store r)
  = [persona; {| role := "user"; content := "hello" |}]
  ∧ played r = [].
Proof. split; vm_compute; reflexivity. Qed.

(** Nothing the pipeline does removes or moves a message of the context. *)
Lemma process_prefix P c s i r :
  get_messages c (store r) `prefix_of` get_messages c (store (fst (process P s i r))).
Proof.
  destruct s, i; cbv beta iota delta [process];
    repeat match goal with
           | |- context [match ?x with _ => _ end] => destruct x
           end;
    cbn [fst store]; try reflexivity; apply run_effect_prefix.
Qed.

Lemma through_prefix f c :
  (∀ i r, get_messages c (store r) `prefix_of` get_messages c (store (fst (f i r)))) →
  ∀ items r,
    get_messages c (store r) `prefix_of` get_messages c (store (fst (through f items r))).
Proof.
  intros Hf items. induction items as [|i items IH]; intros r; [reflexivity|].
  simpl. specialize (Hf i r). destruct (f i r) as [r1 out1].
  specialize (IH r1). destruct (through f items r1) as [r2 out2].
  simpl in *. by etrans.
Qed.

Lemma pipeline_process_prefix P c stages i r :
  get_messages c (store r)
  `prefix_of` get_messages c (store (fst (pipeline_process P stages i r))).
Proof.
  revert i r. induction stages as [|s stages IH]; intros i r; [reflexivity|].
  simpl. pose proof (process_prefix P c s i r) as Hs.
  destruct (process P s i r) as [r1 outs]. simpl in Hs.
  etrans; [apply Hs|]. by apply through_prefix.
Qed.

Lemma feed_prefix P c stages items r :
  get_messages c (store r)
  `prefix_of` get_messages c (store (fst (feed P stages items r))).
Proof. apply through_prefix. intros i r'. apply pipeline_process_prefix. Qed.

(** ** Scenario A: a connection at hour 22 *)

(** C1, as stated, fails: after a connection at hour 22 the first message of
    role [system] in the context is the persona prompt, which does not carry
    the off-hours directive. *)
Lemma scenario_A_first_system_message_is_the_persona :
  ¬ ((∃ m, first_with_role "system" (get_messages (context agent) scenario_A) = Some m
           ∧ occurs_in off_hours_directive (content m) = true)
     ∧ filter (λ m, role m = "user") (get_messages (context agent) scenario_A) = []).
Proof.
  intros [(m & Hfirst & Hoccurs) _].
  assert (first_with_role "system" (get_messages (context agent) scenario_A)
          = Some persona) as Hp by (vm_compute; reflexivity).
  rewrite Hp in Hfirst. injection Hfirst as <-.
  vm_compute in Hoccurs. discriminate.
Qed.

(** C1, amended: after a connection at hour 22 on the freshly built agent the
    context is the persona prompt followed by one more message of role
    [system]; that last message carries the off-hours directive and not the
    business-hours one, while the first [system] message is the persona
    prompt; the context holds no message of role [user], and the task has
    been handed exactly one context frame. *)
Theorem scenario_A_off_hours :
  get_messages (context agent) scenario_A
  = [persona; {| role := "system"; content := greeting_content off_hours_directive |}]
  ∧ first_with_role "system" (get_messages (context agent) scenario_A) = Some persona
  ∧ (∃ m, last (get_messages (context agent) scenario_A) = Some m
          ∧ role m = "system"
          ∧ occurs_in off_hours_directive (content m) = true
          ∧ occurs_in business_hours_directive (content m) = false)
  ∧ filter (λ m, role m = "user") (get_messages (context agent) scenario_A) = []
  ∧ calls (task agent) scenario_A
    = [queue_frames [OpenAILLMContextFrame (context agent)]].
Proof.
  assert (get_messages (context agent) scenario_A
          = [persona; greeting_message 22]) as Hm.
  { unfold scenario_A. rewrite deliver_cons. simpl handler.
    change (deliver agent [] ?w) with w.
    by rewrite (connected_messages agent world0 "c1" 22 wired_init). }
  split; [by rewrite Hm|]. split; [by rewrite Hm|].
  split.
  { exists (greeting_message 22). rewrite Hm.
    split; [reflexivity|]. split; [reflexivity|].
    split; vm_compute; reflexivity. }
  split; [by rewrite Hm|].
  unfold scenario_A. rewrite deliver_cons. simpl handler.
  change (deliver agent [] ?w) with w.
  by rewrite (connected_calls agent world0 "c1" 22 wired_init).
Qed.

(** ** Scenario E: two connections in a row *)

(** C2, as stated, fails: a second connection for the same client, with no
    disconnection in between, is not a no-op. *)
Lemma repeated_connection_is_not_a_no_op :
  session_state agent (deliver agent [connected "c1" 10; connected "c1" 10] world0)
  ≠ session_state agent (deliver agent [connected "c1" 10] world0).
Proof.
  intros Heq. apply (f_equal (λ s, length (fst s))) in Heq.
  vm_compute in Heq. discriminate.
Qed.

(** C2, amended: the agent is built with exactly one task object, and no
    sequence of channel events creates or removes a task object.  A second
    connection with no disconnection in between is handled like the first:
    it appends one more directive to the context and queues one more context
    frame on the same task, and the log gets the two ordinary lines of a
    connection. *)
Theorem repeated_connection (a : Agent) (w : World) (client : string) (h1 h2 : Z) :
  wired a w →
  size (tasks world0) = 1
  ∧ (∀ evs, dom (tasks (deliver a evs w)) = dom (tasks w))
  ∧ get_messages (context a)
      (deliver a [connected client h1; connected client h2] w)
    = get_messages (context a) w ++ [greeting_message h1; greeting_message h2]
  ∧ calls (task a) (deliver a [connected client h1; connected client h2] w)
    = calls (task a) w
      ++ [queue_frames [OpenAILLMContextFrame (context a)];
          queue_frames [OpenAILLMContextFrame (context a)]]
  ∧ log (deliver a [connected client h1; connected client h2] w)
    = log w
      ++ [log_client_connected client; log_context_message (context_message h1);
          log_client_connected client; log_context_message (context_message h2)].
Proof.
  intros Hw.
  pose proof (wired_run a w (on_client_connected a client h1) Hw) as Hw1.
  split; [apply map_size_singleton|].
  split; [intros evs; apply deliver_dom|].
  rewrite !deliver_cons. change (deliver a [] ?x) with x. simpl handler.
  split; [|split].
  - rewrite connected_messages by done. rewrite connected_messages by done.
    by rewrite <- app_assoc.
  - rewrite connected_calls by done. rewrite connected_calls by done.
    by rewrite <- app_assoc.
  - rewrite !connected_log. by rewrite <- app_assoc.
Qed.

Lemma repeated_connection_fresh :
  wired agent world0
  ∧ length (get_messages (context agent)
              (deliver agent [connected "c1" 10; connected "c1" 10] world0)) = 3
  ∧ dom (tasks (deliver agent [connected "c1" 10; connected "c1" 10] world0))
    = dom (tasks world0).
Proof.
  split; [apply wired_init|].
  destruct (repeated_connection agent world0 "c1" 10 10 wired_init)
    as (_ & Hdom & Hm & _).
  split; [rewrite Hm; reflexivity | apply Hdom].
Defined.

Lemma calls_run t es w :
  is_Some (tasks w !! t) →
  calls t (run es w) = calls t w ++ omap (call_on t) es.
Proof.
  revert w. induction es as [|e es IH]; intros w Ht.
  - by rewrite run_nil, app_nil_r.
  - rewrite run_cons, IH.
    + destruct e as [r | l m | t' k]; try reflexivity.
      destruct (decide (t' = t)) as [->|Hne].
      * rewrite calls_receive by done. simpl.
        rewrite decide_True by done. by rewrite <- app_assoc.
      * rewrite calls_receive_other by done. simpl.
        by rewrite decide_False.
    + apply elem_of_dom. destruct (run_effect_dom w e) as [_ ->].
      by apply elem_of_dom.
Qed.

Lemma deliver_run a evs w :
  deliver a evs w = run (concat (map (handler a) evs)) w.
Proof.
  revert w. induction evs as [|ev evs IH]; intros w; [reflexivity|].
  rewrite deliver_cons, IH. simpl. by rewrite run_app.
Qed.

(** The calls recorded in the store are the calls of the handlers. *)
Lemma calls_deliver a evs w :
  wired a w →
  calls (task a) (deliver a evs w) = calls (task a) w ++ calls_of a evs.
Proof.
  intros Hw. rewrite deliver_run. apply calls_run, (wired_task a w Hw).
Qed.

Lemma calls_of_app a evs1 evs2 :
  calls_of a (evs1 ++ evs2) = calls_of a evs1 ++ calls_of a evs2.
Proof.
  unfold calls_of. by rewrite map_app, concat_app, omap_app.
Qed.

(** Every world the agent can be in after channel events is wired. *)
Lemma reachable_wired evs : wired agent (deliver agent evs world0).
Proof. apply wired_deliver, wired_init. Qed.

(** The calls on the task after any events, read back from the store. *)
Lemma calls_reachable evs :
  calls (task agent) (deliver agent evs world0) = calls_of agent evs.
Proof. by rewrite (calls_deliver agent evs world0 wired_init). Qed.

(** ** Cancellation *)

Lemma inject_cancelled i s :
  SessionTask.cancelled s = true → SessionTask.inject i s = s.
Proof. intros Hc. unfold SessionTask.inject. by rewrite Hc. Qed.

Lemma advance_cancelled act s :
  SessionTask.cancelled s = true → SessionTask.advance act s = s.
Proof. intros Hc. unfold SessionTask.advance. by rewrite Hc. Qed.

Lemma cancel_cancel s :
  SessionTask.cancel (SessionTask.cancel s) = SessionTask.cancel s.
Proof. reflexivity. Qed.

Lemma perform_after_cancel s c :
  perform (SessionTask.cancel s) c = SessionTask.cancel s.
Proof.
  destruct c as [frames|]; [|apply cancel_cancel].
  simpl. induction frames as [|f frames IH]; [reflexivity|].
  simpl. by rewrite inject_cancelled.
Qed.

Lemma step_after_cancel s x :
  step (SessionTask.cancel s) x = SessionTask.cancel s.
Proof.
  destruct x as [c|act]; [apply perform_after_cancel|].
  by apply advance_cancelled.
Qed.

Lemma steps_after_cancel xs s :
  steps xs (SessionTask.cancel s) = SessionTask.cancel s.
Proof.
  induction xs as [|x xs IH]; [reflexivity|].
  unfold steps in *. simpl. by rewrite step_after_cancel.
Qed.

Lemma calls_of_disconnected a client :
  calls_of a [disconnected client] = [cancel].
Proof.
  unfold calls_of. simpl. by rewrite decide_True.
Qed.

Lemma calls_of_disconnected_twice a client client' :
  calls_of a [disconnected client; disconnected client'] = [cancel; cancel].
Proof.
  unfold calls_of. simpl. by rewrite decide_True.
Qed.

(** The stages of the session task only ever append to the context. *)
Lemma step_prefix s x :
  SessionTask.context s `prefix_of` SessionTask.context (step s x).
Proof.
  destruct x as [[frames|]|act]; simpl.
  - revert s. induction frames as [|f frames IH]; intros s; [reflexivity|].
    simpl. etrans; [|apply IH].
    unfold SessionTask.inject. by destruct (SessionTask.cancelled s).
  - reflexivity.
  - unfold SessionTask.advance.
    destruct (SessionTask.cancelled s); [reflexivity|].
    destruct act, (SessionTask.in_flight s), (SessionTask.injected s) as [|[] ?];
      simpl; try reflexivity; by apply prefix_app_r.
Qed.

Lemma steps_prefix xs s :
  SessionTask.context s `prefix_of` SessionTask.context (steps xs s).
Proof.
  revert s. induction xs as [|x xs IH]; intros s; [reflexivity|].
  unfold steps in *. simpl. etrans; [apply step_prefix | apply IH].
Qed.

(** Left alone, a generation in flight does end in an [assistant] message. *)
Lemma completed_generation_is_recorded s text :
  SessionTask.cancelled s = false →
  SessionTask.in_flight s = Some text →
  SessionTask.context (SessionTask.advance SessionTask.end_of_utterance s)
  = SessionTask.context s ++ [{| role := "assistant"; content := text |}].
Proof.
  intros Hc Hf. unfold SessionTask.advance. by rewrite Hc, Hf.
Qed.

(** C8: on the session task of the specification, [cancel()] applied twice
    gives the same state as applied once: same context, same (empty) queue,
    nothing in flight, no handle held, cancelled; and whatever follows can
    not tell the two apart.  The calls of two disconnections in a row,
    replayed on a session task, leave it as the calls of one do, after any
    earlier events. *)
Theorem cancel_is_idempotent :
  (∀ s, SessionTask.cancel (SessionTask.cancel s) = SessionTask.cancel s)
  ∧ (∀ s xs, steps xs (SessionTask.cancel (SessionTask.cancel s))
             = steps xs (SessionTask.cancel s))
  ∧ (∀ a client client' s,
       foldl perform s (calls_of a [disconnected client; disconnected client'])
       = foldl perform s (calls_of a [disconnected client]))
  ∧ (∀ evs client client' s,
       foldl perform s
         (calls (task agent)
            (deliver agent (evs ++ [disconnected client; disconnected client']) world0))
       = foldl perform s
           (calls (task agent)
              (deliver agent (evs ++ [disconnected client]) world0))).
Proof.
  split; [apply cancel_cancel|]. split; [intros; by rewrite cancel_cancel|].
  split.
  - intros a client client' s.
    rewrite calls_of_disconnected_twice, calls_of_disconnected. reflexivity.
  - intros evs client client' s.
    rewrite !calls_reachable, !calls_of_app, !foldl_app.
    rewrite calls_of_disconnected_twice, calls_of_disconnected. reflexivity.
Qed.

(** C9: on the session task of the specification, cancelling drops the
    generation in flight, and no later step, whether a stage activity or a
    further call, changes the context: the text generated so far never
    becomes an [assistant] message.  This is what the call made by a
    disconnection does. *)
Theorem cancelled_generation_is_never_recorded :
  ∀ (s : SessionTask.t) (xs : list Step),
    SessionTask.in_flight (SessionTask.cancel s) = None
    ∧ SessionTask.context (steps xs (SessionTask.cancel s)) = SessionTask.context s
    ∧ filter (λ m, role m = "assistant")
        (SessionTask.context (steps xs (SessionTask.cancel s)))
      = filter (λ m, role m = "assistant") (SessionTask.context s)
    ∧ ∀ a client,
        SessionTask.context
          (steps xs (foldl perform s (calls_of a [disconnected client])))
        = SessionTask.context s.
Proof.
  intros s xs. split; [reflexivity|].
  rewrite steps_after_cancel. split; [reflexivity|]. split; [reflexivity|].
  intros a client. rewrite calls_of_disconnected. simpl.
  by rewrite steps_after_cancel.
Qed.

(** A generation that has produced some text when the client leaves: the
    segments still on their way and the end-of-utterance marker add nothing,
    while without the cancellation they would. *)
Example cancelled_mid_utterance :
  let s := {| SessionTask.context := [persona];
              SessionTask.injected := [];
              SessionTask.in_flight := Some "Hi, this is";
              SessionTask.handles := 1;
              SessionTask.cancelled := false |} in
  let rest := [stage (SessionTask.generate " Gaia");
               stage SessionTask.end_of_utterance] in
  SessionTask.context (steps (called cancel :: rest) s) = [persona]
  ∧ SessionTask.context (steps rest s)
    = [persona; {| role := "assistant"; content := "Hi, this is Gaia" |}].
Proof. split; reflexivity. Qed.

(** * Whole event sequences *)

Lemma disconnected_messages a c w client :
  get_messages c (run (on_client_disconnected a client) w) = get_messages c w.
Proof. reflexivity. Qed.

Lemma deliver_messages a w evs :
  wired a w →
  get_messages (context a) (deliver a evs w)
  = get_messages (context a) w ++ map greeting_message (connection_hours evs).
Proof.
  revert w. induction evs as [|ev evs IH]; intros w Hw.
  - simpl. by rewrite app_nil_r.
  - rewrite deliver_cons, IH by by apply wired_run.
    destruct ev as [client h | client]; simpl handler.
    + rewrite connected_messages by done. simpl. by rewrite <- app_assoc.
    + by rewrite disconnected_messages.
Qed.



Lemma calls_of_event_call a evs :
  pair_context (context_aggregator a) = context a →
  calls_of a evs = map (event_call a) evs.
Proof.
  intros Hp. induction evs as [|ev evs IH]; [reflexivity|].
  change (ev :: evs) with ([ev] ++ evs). rewrite calls_of_app, IH.
  destruct ev as [client h | client]; unfold calls_of; simpl;
    rewrite decide_True by done; [|reflexivity].
  unfold get_context_frame. simpl. by rewrite Hp.
Qed.

(** X2: after any sequence of channel events the task has received, on top
    of what it had, exactly one call per event, in event order: a
    [queue_frames] of one frame carrying the agent's context for a
    connection, a [cancel] for a disconnection.  A connection that follows
    a disconnection is no exception: the handler does not look at whether
    the task was cancelled. *)
Theorem calls_after_events (a : Agent) (w : World) (evs : list ChannelEvent) :
  wired a w →
  calls (task a) (deliver a evs w)
  = calls (task a) w ++ map (event_call a) evs.
Proof.
  intros Hw. rewrite calls_deliver by done.
  by rewrite (calls_of_event_call a evs (wired_pair a w Hw)).
Qed.

Lemma calls_after_events_example :
  wired agent world0
  ∧ calls (task agent)
      (deliver agent [connected "c1" 9; disconnected "c1"; connected "c1" 9] world0)
    = [queue_frames [OpenAILLMContextFrame (context agent)];
       cancel;
       queue_frames [OpenAILLMContextFrame (context agent)]].
Proof.
  split; [apply wired_init|].
  rewrite (calls_after_events agent world0 _ wired_init). reflexivity.
Defined.

Lemma log_deliver a evs w :
  log (deliver a evs w) = log w ++ concat (map event_log evs).
Proof.
  revert w. induction evs as [|ev evs IH]; intros w.
  - simpl. by rewrite app_nil_r.
  - rewrite deliver_cons, IH. simpl. rewrite app_assoc. f_equal.
    destruct ev as [client h | client]; [apply connected_log | reflexivity].
Qed.

Lemma logged_directives_events evs :
  logged_directives (concat (map event_log evs))
  = map context_message (connection_hours evs).
Proof.
  induction evs as [|[client h | client] evs IH]; simpl; [done| |done].
  by rewrite <- IH.
Qed.

(** X3: the log grows by the handlers' lines, event by event: two lines for
    a connection, one for a disconnection.  The directive sentences the new
    lines record are, in order, exactly the sentences of the messages added
    to the context. *)
Theorem log_after_events (a : Agent) (w : World) (evs : list ChannelEvent) :
  wired a w →
  log (deliver a evs w) = log w ++ concat (map event_log evs)
  ∧ get_messages (context a) (deliver a evs w)
    = get_messages (context a) w
      ++ map (λ s, {| role := "system"; content := greeting_content s |})
           (logged_directives (drop (length (log w)) (log (deliver a evs w)))).
Proof.
  intros Hw. split; [apply log_deliver|].
  rewrite log_deliver, drop_app_length, logged_directives_events.
  rewrite deliver_messages by done.
  by rewrite map_map.
Qed.

Lemma log_after_events_example :
  wired agent world0
  ∧ log (deliver agent [connected "c1" 20; disconnected "c1"] world0)
    = [log_starting;
       log_client_connected "c1";
       log_context_message off_hours_directive;
       log_client_disconnected "c1"].
Proof.
  split; [apply wired_init|].
  destruct (log_after_events agent world0
              [connected "c1" 20; disconnected "c1"] wired_init) as [Hlog _].
  rewrite Hlog. reflexivity.
Defined.

Lemma handler_messages a c ev w :
  get_messages c (run (handler a ev) w) = get_messages c w
  ∨ ∃ h, get_messages c (run (handler a ev) w) = get_messages c w ++ [greeting_message h].
Proof.
  destruct ev as [client h | client]; [|by left].
  simpl handler. unfold on_client_connected.
  rewrite !run_cons, run_nil, get_messages_task.
  destruct (decide (messages a = context_messages c)) as [->|Hne].
  - destruct (lists w !! context_messages c) as [ms|] eqn:Hms.
    + right. exists h. by rewrite get_messages_append_same by by eexists.
    + left. unfold get_messages. simpl. by rewrite lookup_alter_eq, Hms.
  - left. by rewrite get_messages_append_other.
Qed.

Lemma deliver_writes a c evs w :
  Forall (λ m, m ∈ get_messages c w ∨ ∃ h, m = greeting_message h)
    (get_messages c (deliver a evs w)).
Proof.
  revert w. induction evs as [|ev evs IH]; intros w.
  - apply Forall_forall. by left.
  - rewrite deliver_cons. eapply Forall_impl; [apply IH|].
    intros m [Hin | Hg]; [|by right].
    destruct (handler_messages a c ev w) as [Heq | [h Heq]]; rewrite Heq in Hin.
    + by left.
    + apply elem_of_app in Hin as [Hin | Hin]; [by left|].
      right. exists h. by apply list_elem_of_singleton in Hin.
Qed.

(** X4: the handlers only ever write directive messages: whatever list a
    context holds and whatever the events, each message found afterwards was
    there before or is the directive message of some hour, of role [system].
    So the context of the freshly built agent never holds a message of
    another role through the handlers, whatever the events. *)
Theorem handlers_write_directives_only :
  (∀ a c w evs,
     Forall (λ m, m ∈ get_messages c w
                  ∨ (role m = "system" ∧ ∃ h, m = greeting_message h))
       (get_messages c (deliver a evs w)))
  ∧ (∀ evs, Forall (λ m, role m = "system")
              (get_messages (context agent) (deliver agent evs world0))).
Proof.
  split.
  - intros a c w evs. eapply Forall_impl; [apply deliver_writes|].
    intros m [Hin | [h ->]]; [by left | right]. split; [reflexivity | by exists h].
  - intros evs. eapply Forall_impl; [apply (deliver_writes agent (context agent))|].
    intros m [Hin | [h ->]]; [|reflexivity].
    apply list_elem_of_singleton in Hin. by subst.
Qed.

Lemma handler_lists a ev w :
  lists (run (handler a ev) w) = lists w
  ∨ ∃ m, lists (run (handler a ev) w) = alter (λ ms, ms ++ [m]) (messages a) (lists w).
Proof. destruct ev; [right; by eexists | by left]. Qed.

Lemma handler_tasks a ev w :
  ∃ c, tasks (run (handler a ev) w) = alter (receive c) (task a) (tasks w).
Proof. destruct ev; by eexists. Qed.

(** X5: the handlers reach two objects only, the list behind [messages] and
    the task: after any events every other list object and every other task
    object of the store is what it was, and no object has been created or
    removed. *)
Theorem events_touch_own_objects_only (a : Agent) (w : World) (evs : list ChannelEvent) :
  (∀ l, l ≠ messages a → lists (deliver a evs w) !! l = lists w !! l)
  ∧ (∀ t, t ≠ task a → tasks (deliver a evs w) !! t = tasks w !! t)
  ∧ dom (lists (deliver a evs w)) = dom (lists w)
  ∧ dom (tasks (deliver a evs w)) = dom (tasks w).
Proof.
  split; [|split; [|apply deliver_dom]].
  - intros l Hl. revert w. induction evs as [|ev evs IH]; intros w; [reflexivity|].
    rewrite deliver_cons, IH.
    destruct (handler_lists a ev w) as [-> | [m ->]]; [reflexivity|].
    by rewrite lookup_alter_ne.
  - intros t Ht. revert w. induction evs as [|ev evs IH]; intros w; [reflexivity|].
    rewrite deliver_cons, IH.
    destruct (handler_tasks a ev w) as [c ->]. by rewrite lookup_alter_ne.
Qed.

(** A store with a second list object, as another session would own. *)
Lemma events_touch_own_objects_only_example :
  lists (deliver agent [connected "c1" 9; disconnected "c1"]
           {| lists := <[1 := [persona]]> (lists world0);
              tasks := tasks world0;
              log := log world0 |}) !! 1
  = Some [persona].
Proof.
  destruct (events_touch_own_objects_only agent
              {| lists := <[1 := [persona]]> (lists world0);
                 tasks := tasks world0;
                 log := log world0 |}
              [connected "c1" 9; disconnected "c1"]) as [Hl _].
  rewrite (Hl 1) by (simpl; lia). simpl. apply lookup_insert_eq.
Defined.

(** * The directive through the day *)

(** X6: going from one hour to the next the directive changes at two places
    only, from 7 to 8 and from 17 to 18. *)
Theorem directive_changes_at_8_and_18 (h : Z) :
  context_message h ≠ context_message (h + 1) ↔ (h = 7 ∨ h = 17)%Z.
Proof.
  unfold context_message. rewrite !Z.gtb_ltb.
  destruct (Z.ltb_spec h 8), (Z.ltb_spec 17 h),
           (Z.ltb_spec (h + 1) 8), (Z.ltb_spec 17 (h + 1)); simpl;
    (split; [intros Hne; try lia; by contradict Hne
            | intros Hh; try lia; discriminate]).
Qed.
